(** * ipsec-forward: the session table of the UDP forwarder

    A shallow embedding of [ipsec/forward.go].  The forwarder is a concurrent
    program: one goroutine per inbound datagram ([handle]), one reaper
    ([janitor]) and the ingress loop ([run]), all sharing the [sync.Map] of
    sessions.  Each goroutine is embedded as a program counter over the
    statements of its source function, and the program as an executable
    interleaving semantics: a schedule names which goroutine performs its next
    statement and what the environment answers (clock, dial and read results).
    [sync.Map] operations are linearizable, so each of them is one step; the
    fields of a [connection] and [f.closed], which the source reads and
    writes without synchronization, are read and written one statement at a
    time.  The effects on the environment (dials, writes, hooks, closed
    sockets, sleeps) are recorded in a trace, in the order they happen. *)

From stdpp Require Import base gmap list strings.
From Stdlib Require Import ZArith Lia.
From Stdlib.Strings Require Import Byte.

Open Scope string_scope.
Open Scope list_scope.
Open Scope nat_scope.

(** ** Addresses: [net.IP], [net.UDPAddr] and [IP.To4] *)

(** A [net.IP] is a byte slice; the nil slice is the empty list (both have
    length 0 and indexing either panics). *)
Record UDPAddr := { IP : list byte; Port : Z; Zone : string }.

Definition IPv4len : nat := 4.
Definition IPv6len : nat := 16.

Definition isZeros (p : list byte) : bool := forallb (Byte.eqb x00) p.

Definition byteAt (p : list byte) (i : nat) (b : byte) : bool :=
  match p !! i with
  | Some x => Byte.eqb x b
  | None => false
  end.

(** [func (ip IP) To4() IP] of the Go library: a 4-byte address is returned as
    it is, an IPv4-mapped 16-byte address gives its last four bytes, anything
    else gives nil. *)
Definition To4 (ip : list byte) : list byte :=
  if bool_decide (length ip = IPv4len) then ip
  else if bool_decide (length ip = IPv6len)
          && isZeros (take 10 ip) && byteAt ip 10 xff && byteAt ip 11 xff
       then take 4 (drop 12 ip)
       else [].

(** [f.raddr.IP.To4()[0] == 127] (forward.go:124).  [None] is the run-time
    panic of indexing past the length of the slice. *)
Definition loopback_test (ip : list byte) : option bool :=
  match To4 ip !! 0 with
  | Some b => Some (Byte.eqb b x7f)
  | None => None
  end.

(** ** Time *)

(** [time.Time] as nanoseconds on the clock's line, [time.Duration] as the
    int64 count of nanoseconds it is. *)
Definition wrap64 (z : Z) : Z := ((z + 2 ^ 63) mod 2 ^ 64 - 2 ^ 63)%Z.

(** [-d] on int64. *)
Definition negDuration (d : Z) : Z := wrap64 (- d).

(** [d / 4] on int64: Go's division truncates toward zero. *)
Definition quarter (d : Z) : Z := (d ÷ 4)%Z.

(** [t.Add(d)] and [t.Before(u)]. *)
Definition Add (t d : Z) : Z := (t + d)%Z.
Definition Before (t u : Z) : bool := (t <? u)%Z.

(** The reaper's test (forward.go:90):
    [client.lastActive.Before(time.Now().Add(-f.timeout))]. *)
Definition expired (timeout lastActive now : Z) : bool :=
  Before lastActive (Add now (negDuration timeout)).

(** The sender's test (forward.go:182):
    [client.lastActive.Before(time.Now().Add(f.timeout / 4))]. *)
Definition should_refresh (timeout lastActive now : Z) : bool :=
  Before lastActive (Add now (quarter timeout)).

(** ** Sessions and the forwarder *)

(** [type connection struct]: [available] is the readiness gate, a channel
    that is closed once ([true] here) to release every receiver; [rConn] is
    the upstream socket, nil until dialled. *)
Record connection := {
  available : bool;
  rConn : option nat;
  lastActive : Z }.

Definition set_rConn (s : option nat) (c : connection) : connection :=
  {| available := available c; rConn := s; lastActive := lastActive c |}.
Definition set_lastActive (t : Z) (c : connection) : connection :=
  {| available := available c; rConn := rConn c; lastActive := t |}.
Definition close_available (c : connection) : connection :=
  {| available := true; rConn := rConn c; lastActive := lastActive c |}.

Inductive sockState := SockOpen | SockClosed.

(** What the program does to its environment, in the order it does it. *)
Inductive event :=
| EDial (cli : string) (loopback ok : bool)   (* net.DialUDP for the client's session *)
| EOpenGate (p : nat)                         (* close(client.available) *)
| EConnect (cli : string)                     (* f.connectCallback(cliAddr) *)
| EDisconnect (cli : string)                  (* f.disconnectCallback(key) *)
| EWriteUp (p s : nat) (data : list byte)     (* client.rConn.WriteMsgUDP of session p, sent on socket s *)
| EWriteDown (cli : string) (data : list byte) (* listenerConn.WriteMsgUDP, sent *)
| EWriteErr                                   (* a WriteMsgUDP that returned an error *)
| ECloseSock (s : nat)                        (* rConn.Close() *)
| ECloseListener                              (* listenerConn.Close() *)
| ESleep (d : Z).                             (* time.Sleep(f.timeout) *)

(** The statements of [handle] (H...) and [janitor] (J...), each carrying the
    goroutine's live local variables: [p] is the pointer [client], [data] and
    [addr] the arguments ([addr] in its [String()] form, [cliAddr]). *)
Inductive pc :=
| HLoad (data : list byte) (addr : string)              (* :110 f.clients.Load *)
| HStore (data : list byte) (addr : string)             (* :112-117 new connection, Store *)
| HDial (p : nat) (data : list byte) (addr : string)    (* :124-130 loopback test, DialUDP *)
| HDialFail (addr : string)                             (* :132-134 Delete, return *)
| HSetConn (p s : nat) (data : list byte) (addr : string) (* :137 client.rConn = rconn *)
| HSetActive (p : nat) (data : list byte) (addr : string) (* :138 *)
| HOpenGate (p : nat) (data : list byte) (addr : string)  (* :139 close(client.available) *)
| HConnect (p : nat) (data : list byte) (addr : string)   (* :141 *)
| HFirstWrite (p : nat) (data : list byte) (addr : string) (* :143 *)
| HRelayRead (p : nat) (addr : string)                  (* :152 client.rConn.ReadMsgUDP *)
| HRelayClose (p : nat) (addr : string)                 (* :154 *)
| HRelayDelete (addr : string)                          (* :155 *)
| HRelayHook (addr : string)                            (* :156 *)
| HRelayWrite (p : nat) (buf : list byte) (addr : string) (* :162 *)
| HWait (p : nat) (data : list byte) (addr : string)    (* :171 <-client.available *)
| HWrite (p : nat) (data : list byte) (addr : string)   (* :174 *)
| HReload (addr : string)                               (* :179 f.clients.Load *)
| HRefresh (p : nat)                                    (* :182 the Before test *)
| HRefreshSet (p : nat)                                 (* :183 client.lastActive = time.Now() *)
| JCheck                                                (* :84 for !f.closed *)
| JSleep                                                (* :85 *)
| JScan                                                 (* :88-94 Range *)
| JEvict (keys rest : list string)                      (* :97 LoadAndDelete *)
| JEvictClose (p : nat) (keys rest : list string)       (* :98 rConn.Close() *)
| JHook (rest : list string)                            (* :102-104 *)
| Done.

(** [type Forwarder struct] together with what it points to: the connection
    objects ([heap], a [*connection] is an index), the upstream sockets
    ([socks]), the goroutines and the trace of effects.  [crashed] is a
    run-time panic, which ends the process. *)
Record State := {
  raddr : UDPAddr;
  timeout : Z;
  closed : bool;
  listenerConn : sockState;
  clients : gmap string nat;
  heap : list connection;
  socks : list sockState;
  threads : list pc;
  crashed : bool;
  trace : list event }.

Definition set_closed (b : bool) (st : State) : State :=
  {| raddr := raddr st; timeout := timeout st; closed := b;
     listenerConn := listenerConn st; clients := clients st; heap := heap st;
     socks := socks st; threads := threads st; crashed := crashed st;
     trace := trace st |}.
Definition set_listenerConn (l : sockState) (st : State) : State :=
  {| raddr := raddr st; timeout := timeout st; closed := closed st;
     listenerConn := l; clients := clients st; heap := heap st;
     socks := socks st; threads := threads st; crashed := crashed st;
     trace := trace st |}.
Definition set_clients (m : gmap string nat) (st : State) : State :=
  {| raddr := raddr st; timeout := timeout st; closed := closed st;
     listenerConn := listenerConn st; clients := m; heap := heap st;
     socks := socks st; threads := threads st; crashed := crashed st;
     trace := trace st |}.
Definition set_heap (h : list connection) (st : State) : State :=
  {| raddr := raddr st; timeout := timeout st; closed := closed st;
     listenerConn := listenerConn st; clients := clients st; heap := h;
     socks := socks st; threads := threads st; crashed := crashed st;
     trace := trace st |}.
Definition set_socks (s : list sockState) (st : State) : State :=
  {| raddr := raddr st; timeout := timeout st; closed := closed st;
     listenerConn := listenerConn st; clients := clients st; heap := heap st;
     socks := s; threads := threads st; crashed := crashed st;
     trace := trace st |}.
Definition set_threads (t : list pc) (st : State) : State :=
  {| raddr := raddr st; timeout := timeout st; closed := closed st;
     listenerConn := listenerConn st; clients := clients st; heap := heap st;
     socks := socks st; threads := t; crashed := crashed st;
     trace := trace st |}.
Definition panic (st : State) : State :=
  {| raddr := raddr st; timeout := timeout st; closed := closed st;
     listenerConn := listenerConn st; clients := clients st; heap := heap st;
     socks := socks st; threads := threads st; crashed := true;
     trace := trace st |}.
Definition emit (e : event) (st : State) : State :=
  {| raddr := raddr st; timeout := timeout st; closed := closed st;
     listenerConn := listenerConn st; clients := clients st; heap := heap st;
     socks := socks st; threads := threads st; crashed := crashed st;
     trace := trace st ++ [e] |}.

(** The goroutine [tid] moves on to statement [c]. *)
Definition goto (tid : nat) (c : pc) (st : State) : State :=
  set_threads (<[tid := c]> (threads st)) st.

(** ** Start-up: [Forward] *)

(** The operating system as [Forward] sees it. *)
Record Env := {
  ResolveUDPAddr : string → UDPAddr + string;
  ListenUDP : UDPAddr → unit + string }.

Inductive task := TJanitor | TRun.

(** What a call of [Forward] leaves behind: its two results and the
    goroutines it started with [go]. *)
Record started := {
  forwarder : option State;
  err : option string;
  spawned : list task }.

(** The forwarder as [Forward] returns it: an empty table, the listening
    socket open, the reaper at the head of its loop.  The ingress loop [run]
    is the [APacket] action below. *)
Definition new_forwarder (ra : UDPAddr) (t : Z) : State :=
  {| raddr := ra; timeout := t; closed := false; listenerConn := SockOpen;
     clients := ∅; heap := []; socks := []; threads := [JCheck];
     crashed := false; trace := [] |}.

Definition failed (e : string) : started :=
  {| forwarder := None; err := Some e; spawned := [] |}.

(** [func Forward(src, dst string, timeout time.Duration)], returning the
    forwarder and an error (forward.go:42-68). *)
Definition Forward (env : Env) (src dst : string) (t : Z) : started :=
  match ResolveUDPAddr env src with
  | inr e => failed e
  | inl listenAddr =>
    match ResolveUDPAddr env dst with
    | inr e => failed e
    | inl ra =>
      match ListenUDP env listenAddr with
      | inr e => failed e
      | inl _ =>
        {| forwarder := Some (new_forwarder ra t); err := None;
           spawned := [TJanitor; TRun] |}
      end
    end
  end.

(** ** The goroutines, statement by statement *)

(** What the environment answers at a step: the reading of [time.Now()], the
    reading of [time.Now()] when [Range] visits a key, whether the system call
    of the step succeeds, and the datagram a read returns. *)
Record oracle := {
  o_now : Z;
  o_clock : string → Z;
  o_ok : bool;
  o_data : list byte }.

Definition rConn_of (p : nat) (st : State) : option nat :=
  heap st !! p ≫= rConn.

(** [client.rConn.WriteMsgUDP(data, nil, nil)] with its error logged.  A
    method called through a nil [*net.UDPConn] takes the address of the
    embedded [conn] of a nil pointer, a run-time panic. *)
Definition write_up (ok : bool) (p : nat) (data : list byte) (st : State) : State :=
  match rConn_of p st with
  | None => panic st
  | Some s =>
    match socks st !! s with
    | Some SockOpen => if ok then emit (EWriteUp p s data) st else emit EWriteErr st
    | _ => emit EWriteErr st
    end
  end.

(** [f.listenerConn.WriteMsgUDP(buf[:n], nil, addr)] with its error logged. *)
Definition write_down (ok : bool) (addr : string) (buf : list byte) (st : State) : State :=
  match listenerConn st with
  | SockOpen => if ok then emit (EWriteDown addr buf) st else emit EWriteErr st
  | SockClosed => emit EWriteErr st
  end.

Definition close_sock (s : nat) (st : State) : State :=
  emit (ECloseSock s) (set_socks (<[s := SockClosed]> (socks st)) st).

(** [c.rConn.Close()] for the connection at [p]. *)
Definition close_rConn (p : nat) (st : State) : State :=
  match rConn_of p st with
  | Some s => close_sock s st
  | None => panic st
  end.

(** The callback of [Range] in [janitor] (forward.go:88-94) on one entry. *)
Definition idle (clock : string → Z) (st : State) (kv : string * nat) : bool :=
  match heap st !! kv.2 with
  | Some client => expired (timeout st) (lastActive client) (clock kv.1)
  | None => false
  end.

(** [keysToDelete] after the [Range] of [janitor]. *)
Definition scan (clock : string → Z) (st : State) : list string :=
  (List.filter (idle clock st) (map_to_list (clients st))).*1.

Definition new_connection (now : Z) : connection :=
  {| available := false; rConn := None; lastActive := now |}.

(** One statement of the goroutine [tid], which stands at [c].  [None]: the
    goroutine cannot move (it has returned, or it waits on a gate that is
    still shut). *)
Definition exec (o : oracle) (tid : nat) (c : pc) (st : State) : option State :=
  match c with
  | HLoad data addr =>
    match clients st !! addr with
    | Some p => Some (goto tid (HWait p data addr) st)
    | None => Some (goto tid (HStore data addr) st)
    end
  | HStore data addr =>
    let p := length (heap st) in
    Some (goto tid (HDial p data addr)
            (set_clients (<[addr := p]> (clients st))
               (set_heap (heap st ++ [new_connection (o_now o)]) st)))
  | HDial p data addr =>
    match loopback_test (IP (raddr st)) with
    | None => Some (panic st)
    | Some lb =>
      if o_ok o
      then Some (goto tid (HSetConn p (length (socks st)) data addr)
                   (emit (EDial addr lb true)
                      (set_socks (socks st ++ [SockOpen]) st)))
      else Some (goto tid (HDialFail addr) (emit (EDial addr lb false) st))
    end
  | HDialFail addr =>
    Some (goto tid Done (set_clients (delete addr (clients st)) st))
  | HSetConn p s data addr =>
    Some (goto tid (HSetActive p data addr)
            (set_heap (alter (set_rConn (Some s)) p (heap st)) st))
  | HSetActive p data addr =>
    Some (goto tid (HOpenGate p data addr)
            (set_heap (alter (set_lastActive (o_now o)) p (heap st)) st))
  | HOpenGate p data addr =>
    Some (goto tid (HConnect p data addr)
            (emit (EOpenGate p)
               (set_heap (alter close_available p (heap st)) st)))
  | HConnect p data addr =>
    Some (goto tid (HFirstWrite p data addr) (emit (EConnect addr) st))
  | HFirstWrite p data addr =>
    Some (goto tid (HRelayRead p addr) (write_up (o_ok o) p data st))
  | HRelayRead p addr =>
    match rConn_of p st with
    | None => Some (panic st)
    | Some s =>
      match socks st !! s with
      | Some SockOpen =>
        if o_ok o
        then Some (goto tid (HRelayWrite p (o_data o) addr) st)
        else Some (goto tid (HRelayClose p addr) st)
      | _ => Some (goto tid (HRelayClose p addr) st)
      end
    end
  | HRelayClose p addr =>
    Some (goto tid (HRelayDelete addr) (close_rConn p st))
  | HRelayDelete addr =>
    Some (goto tid (HRelayHook addr)
            (set_clients (delete addr (clients st)) st))
  | HRelayHook addr =>
    Some (goto tid Done (emit (EDisconnect addr) st))
  | HRelayWrite p buf addr =>
    Some (goto tid (HRelayRead p addr) (write_down (o_ok o) addr buf st))
  | HWait p data addr =>
    match heap st !! p with
    | Some client =>
      if available client then Some (goto tid (HWrite p data addr) st) else None
    | None => None
    end
  | HWrite p data addr =>
    Some (goto tid (HReload addr) (write_up (o_ok o) p data st))
  | HReload addr =>
    match clients st !! addr with
    | Some p => Some (goto tid (HRefresh p) st)
    | None => Some (goto tid Done st)
    end
  | HRefresh p =>
    match heap st !! p with
    | Some client =>
      if should_refresh (timeout st) (lastActive client) (o_now o)
      then Some (goto tid (HRefreshSet p) st)
      else Some (goto tid Done st)
    | None => Some (panic st)
    end
  | HRefreshSet p =>
    Some (goto tid Done
            (set_heap (alter (set_lastActive (o_now o)) p (heap st)) st))
  | JCheck =>
    if closed st then Some (goto tid Done st) else Some (goto tid JSleep st)
  | JSleep =>
    Some (goto tid JScan (emit (ESleep (timeout st)) st))
  | JScan =>
    let keysToDelete := scan (o_clock o) st in
    Some (goto tid (JEvict keysToDelete keysToDelete) st)
  | JEvict keys (key :: rest) =>
    match clients st !! key with
    | Some p =>
      Some (goto tid (JEvictClose p keys rest)
              (set_clients (delete key (clients st)) st))
    | None => Some (goto tid (JEvict keys rest) st)
    end
  | JEvict keys [] =>
    Some (goto tid (JHook keys) st)
  | JEvictClose p keys rest =>
    Some (goto tid (JEvict keys rest) (close_rConn p st))
  | JHook (key :: rest) =>
    Some (goto tid (JHook rest) (emit (EDisconnect key) st))
  | JHook [] =>
    Some (goto tid JCheck st)
  | Done => None
  end.

(** ** Stop: [Close] *)

(** The callback of [Range] in [Close] (forward.go:191-194) on one entry; a
    panic ends the iteration. *)
Definition close_entry (st : State) (kv : string * nat) : State :=
  if crashed st then st else close_rConn kv.2 st.

(** [func (f *Forwarder) Close()] (forward.go:189-196). *)
Definition Close (st : State) : State :=
  let st1 := set_closed true st in
  let st2 := foldl close_entry st1 (map_to_list (clients st1)) in
  if crashed st2 then st2
  else emit ECloseListener (set_listenerConn SockClosed st2).

(** ** The program *)

Inductive action :=
| APacket (data : list byte) (addr : string)  (* run: ReadMsgUDP returned, go f.handle(buf[:n], addr) *)
| AStep (tid : nat) (o : oracle)              (* the goroutine tid runs its next statement *)
| AStop.                                      (* the owner calls f.Close() *)

Definition step (a : action) (st : State) : option State :=
  if crashed st then None
  else match a with
       | APacket data addr =>
         match listenerConn st with
         | SockOpen => Some (set_threads (threads st ++ [HLoad data addr]) st)
         | SockClosed => None
         end
       | AStep tid o => c ← threads st !! tid; exec o tid c st
       | AStop => Some (Close st)
       end.

Fixpoint run (sched : list action) (st : State) : option State :=
  match sched with
  | [] => Some st
  | a :: rest => st' ← step a st; run rest st'
  end.

(** The goroutine [tid] alone, for [n] statements, the environment answering
    [o] each time. *)
Definition solo (o : oracle) (tid n : nat) : list action :=
  replicate n (AStep tid o).

(** Counting in a trace. *)
Definition is_dial (cli : string) (e : event) : bool :=
  match e with
  | EDial c _ _ => bool_decide (c = cli)
  | _ => false
  end.
Definition is_disconnect (cli : string) (e : event) : bool :=
  match e with
  | EDisconnect c => bool_decide (c = cli)
  | _ => false
  end.
Definition dials (cli : string) (tr : list event) : nat :=
  length (List.filter (is_dial cli) tr).
Definition disconnects (cli : string) (tr : list event) : nat :=
  length (List.filter (is_disconnect cli) tr).

(** ** Where a goroutine stands with respect to a session *)

(** The session the goroutine is creating: it stored the session and has not
    yet opened its gate. *)
Definition creating (c : pc) : option nat :=
  match c with
  | HDial p _ _ | HSetConn p _ _ _ | HSetActive p _ _ | HOpenGate p _ _ => Some p
  | _ => None
  end.

(** The session whose socket the goroutine has stored (forward.go:137) while
    the gate is still to be opened. *)
Definition dialled (c : pc) : option nat :=
  match c with
  | HSetActive p _ _ | HOpenGate p _ _ => Some p
  | _ => None
  end.

(** The session whose gate the goroutine has behind it: the creator after
    forward.go:139, another sender after forward.go:171. *)
Definition past_gate (c : pc) : option nat :=
  match c with
  | HConnect p _ _ | HFirstWrite p _ _ | HWrite p _ _ => Some p
  | _ => None
  end.

(** What holds in every state the forwarder reaches. *)
Record Inv (st : State) : Prop := {
  inv_creating : ∀ tid c p,
    threads st !! tid = Some c → creating c = Some p → p < length (heap st);
  inv_dialled : ∀ tid c p,
    threads st !! tid = Some c → dialled c = Some p →
    ∃ k, heap st !! p = Some k ∧ is_Some (rConn k);
  inv_past : ∀ tid c p,
    threads st !! tid = Some c → past_gate c = Some p →
    ∃ k, heap st !! p = Some k ∧ available k = true;
  inv_open : ∀ p k,
    heap st !! p = Some k → available k = true →
    is_Some (rConn k) ∧ ∃ j, trace st !! j = Some (EOpenGate p);
  inv_order : ∀ i p s d,
    trace st !! i = Some (EWriteUp p s d) →
    ∃ j, j < i ∧ trace st !! j = Some (EOpenGate p) }.

(** Connection objects stay, open gates stay open, stored sockets stay
    stored. *)
Definition heap_le (h h' : list connection) : Prop :=
  ∀ p k, h !! p = Some k →
    ∃ k', h' !! p = Some k'
          ∧ (available k = true → available k' = true)
          ∧ (is_Some (rConn k) → is_Some (rConn k')).

(** What a goroutine that has just moved to [c] needs of the heap. *)
Definition pc_ok (h : list connection) (c : pc) : Prop :=
  (∀ p, creating c = Some p → p < length h)
  ∧ (∀ p, dialled c = Some p → ∃ k, h !! p = Some k ∧ is_Some (rConn k))
  ∧ (∀ p, past_gate c = Some p → ∃ k, h !! p = Some k ∧ available k = true).

(** The session [p] has its gate shut and nobody left to open it. *)
Definition abandoned (p : nat) (st : State) : Prop :=
  (∃ k, heap st !! p = Some k ∧ available k = false)
  ∧ ∀ tid c, threads st !! tid = Some c → creating c ≠ Some p.

(** "The first datagram is sent upstream before the readiness gate opens",
    on a trace: every opening of a gate has an upstream write of that
    session before it. *)
Definition write_precedes_gate (tr : list event) : Prop :=
  ∀ i p, tr !! i = Some (EOpenGate p) →
    ∃ j s d, j < i ∧ tr !! j = Some (EWriteUp p s d).

(** The upstream socket of the session stored under [key]. *)
Definition sock_of (st : State) (key : string) : option nat :=
  clients st !! key ≫= λ p, rConn_of p st.

(** Every session of the table has its upstream socket. *)
Definition all_dialled (st : State) : Prop :=
  ∀ key p, clients st !! key = Some p →
    ∃ s, rConn_of p st = Some s ∧ s < length (socks st).

(** Every session that a scan at the clock readings [clock] collects has
    its upstream socket. *)
Definition collected_dialled (clock : string → Z) (st : State) : Prop :=
  ∀ key p, clients st !! key = Some p → idle clock st (key, p) = true →
    ∃ s, rConn_of p st = Some s ∧ s < length (socks st).

(** The events of closing sockets. *)
Definition is_close (e : event) : bool :=
  match e with
  | ECloseSock _ | ECloseListener => true
  | _ => false
  end.

(** [st'] is [st] with more upstream sockets closed, and nothing else
    changed but the trace of these closings and, possibly, a panic. *)
Definition closes_only (st st' : State) : Prop :=
  heap st' = heap st ∧ threads st' = threads st ∧ clients st' = clients st
  ∧ closed st' = closed st ∧ listenerConn st' = listenerConn st
  ∧ length (socks st') = length (socks st)
  ∧ (∀ s, socks st !! s = Some SockClosed → socks st' !! s = Some SockClosed)
  ∧ ∃ evs, trace st' = trace st ++ evs ∧ Forall (λ e, is_close e = true) evs.

(** [st'] has the configuration and the flags of [st]. *)
Definition same_config (st st' : State) : Prop :=
  raddr st' = raddr st ∧ timeout st' = timeout st ∧ closed st' = closed st
  ∧ listenerConn st' = listenerConn st ∧ crashed st' = crashed st.

(** ** Concrete inputs *)

Module Sample.

(** The upstream 10.0.0.2:4500, and 2001:db8::1 port 4500. *)
Definition upstream4 : UDPAddr :=
  {| IP := [x0a; x00; x00; x02]; Port := 4500; Zone := "" |}.
Definition ip6 : list byte :=
  [x20; x01; x0d; xb8; x00; x00; x00; x00; x00; x00; x00; x00; x00; x00; x00; x01].
Definition upstream6 : UDPAddr := {| IP := ip6; Port := 4500; Zone := "" |}.

Definition cli : string := "10.0.0.1:5000".
Definition P1 : list byte := [x01].
Definition P2 : list byte := [x02].

Definition second : Z := 1000000000.

(** The environment at clock reading [t]: system calls succeed ([yes]) or
    fail ([no]). *)
Definition yes (t : Z) : oracle :=
  {| o_now := t; o_clock := λ _, t; o_ok := true; o_data := [x52] |}.
Definition no (t : Z) : oracle :=
  {| o_now := t; o_clock := λ _, t; o_ok := false; o_data := [] |}.

(** A forwarder to [upstream4] with a timeout of 40 seconds. *)
Definition fwd : State := new_forwarder upstream4 (40 * second).

(** Two first packets from [cli]; both handlers [Load] before either
    [Store]s, then each runs up to its relay loop. *)
Definition race : list action :=
  [APacket P1 cli; APacket P2 cli;
   AStep 1 (yes 1); AStep 2 (yes 1);
   AStep 1 (yes 2); AStep 2 (yes 2)]
  ++ solo (yes 3) 1 6 ++ solo (yes 4) 2 6.

(** The creator of [cli]'s session opens the gate; the handler of a second
    packet, which had loaded the session, passes the gate and writes; only
    then the creator calls the hook and writes the first packet. *)
Definition overtaking : list action :=
  [APacket P1 cli; AStep 1 (yes 1); AStep 1 (yes 1);
   APacket P2 cli; AStep 2 (yes 1)]
  ++ solo (yes 2) 1 4 ++ solo (yes 3) 2 2 ++ solo (yes 4) 1 2.

(** A session established at second 100, a second packet forwarded at
    second 101. *)
Definition one_second_later : list action :=
  [APacket P1 cli] ++ solo (yes (100 * second)) 1 8
  ++ [APacket P2 cli] ++ solo (yes (101 * second)) 2 6.

(** The first packet's dial fails while the handler of a second packet
    already holds the session. *)
Definition failed_dial : list action :=
  [APacket P1 cli; AStep 1 (yes 1); AStep 1 (yes 1);
   APacket P2 cli; AStep 2 (yes 1);
   AStep 1 (no 2); AStep 1 (yes 2)].


(** A first packet for a forwarder whose upstream is [upstream6]. *)
Definition first_packet : list action :=
  [APacket P1 cli; AStep 1 (yes 1); AStep 1 (yes 1); AStep 1 (yes 1)].

Definition env_ok : Env :=
  {| ResolveUDPAddr := λ _, inl upstream4; ListenUDP := λ _, inl () |}.
Definition env_noresolve : Env :=
  {| ResolveUDPAddr := λ _, inr "no such host"; ListenUDP := λ _, inl () |}.
Definition env_nobind : Env :=
  {| ResolveUDPAddr := λ _, inl upstream4;
     ListenUDP := λ _, inr "address already in use" |}.


(** [fwd] when the first packet of [cli] has been read and its handler
    started. *)
Definition arrived : State :=
  set_threads [JCheck; HLoad P1 cli] fwd.

(** [fwd] with the session of [cli] established at second 1, its relay loop
    reading, and the reaper about to sleep. *)
Definition established : State :=
  {| raddr := upstream4; timeout := 40 * second; closed := false;
     listenerConn := SockOpen; clients := {[ cli := 0 ]};
     heap := [{| available := true; rConn := Some 0; lastActive := second |}];
     socks := [SockOpen]; threads := [JSleep; HRelayRead 0 cli];
     crashed := false;
     trace := [EDial cli false true; EOpenGate 0; EConnect cli;
               EWriteUp 0 0 P1] |}.

(** How [established] is reached. *)
Definition establishing : list action :=
  [APacket P1 cli] ++ solo (yes second) 1 8 ++ solo (yes second) 0 1.

(** The dial for the first packet fails; a second packet of [cli] arrives
    after that, and its handler loads the session before the first handler
    deletes it. *)
Definition late_packet : list action :=
  [APacket P1 cli; AStep 1 (yes 1); AStep 1 (yes 1); AStep 1 (no 2);
   APacket P2 cli; AStep 2 (yes 3); AStep 1 (yes 4)].

(** Two first packets of [cli] whose handlers both miss and both store; the
    first handler's dial fails, the second establishes its session, and
    then the first handler deletes. *)
Definition race_failed : list action :=
  [APacket P1 cli; APacket P2 cli; AStep 1 (yes 1); AStep 2 (yes 1);
   AStep 1 (yes 2); AStep 2 (yes 2); AStep 1 (no 3)]
  ++ solo (yes 4) 2 6 ++ [AStep 1 (yes 5)].

(** [Close] is called when the handler of the first packet has stored its
    session and has not yet dialled. *)
Definition stop_while_dialling : list action :=
  [APacket P1 cli; AStep 1 (yes 1); AStep 1 (yes 1); AStop].

(** The handler of the first packet stores its session at second 1 and has
    not yet dialled when the reaper runs a cycle at second 50. *)
Definition pending_expired : list action :=
  [APacket P1 cli; AStep 1 (yes second); AStep 1 (yes second)]
  ++ solo (yes (50 * second)) 0 5.

End Sample.

(** * Properties *)

(** ** The loopback test *)

Lemma To4_length (ip : list byte) :
  length ip = IPv6len → length (To4 ip) = 4 ∨ To4 ip = [].
Proof.
  intros Hlen. unfold To4.
  rewrite bool_decide_eq_false_2 by (rewrite Hlen; discriminate).
  destruct (_ && _); [left | by right].
  rewrite length_take, length_drop, Hlen. reflexivity.
Qed.

(** The index of forward.go:124 is in bounds exactly when [To4] does not
    return nil. *)
Lemma loopback_test_None (ip : list byte) :
  loopback_test ip = None ↔ To4 ip = [].
Proof.
  unfold loopback_test. destruct (To4 ip) as [|b l]; simpl; split; done.
Qed.

Lemma loopback_test_ipv4 (ip : list byte) :
  length ip = IPv4len → is_Some (loopback_test ip).
Proof.
  intros Hlen. unfold loopback_test, To4.
  rewrite bool_decide_eq_true_2 by done.
  destruct ip as [|b l]; [done | simpl; eauto].
Qed.

Lemma loopback_test_mapped (ip : list byte) :
  length ip = IPv6len → isZeros (take 10 ip) = true →
  byteAt ip 10 xff = true → byteAt ip 11 xff = true →
  is_Some (loopback_test ip).
Proof.
  intros Hlen Hz H10 H11. unfold loopback_test, To4.
  rewrite bool_decide_eq_false_2 by (rewrite Hlen; discriminate).
  rewrite bool_decide_eq_true_2 by done. rewrite Hz, H10, H11. simpl.
  do 13 (destruct ip as [|? ip]; [discriminate Hlen |]). simpl. eauto.
Qed.

(** C10, at the failing input: with the upstream 2001:db8::1 (a pure IPv6
    address) [To4] returns nil, the index of the loopback test is out of
    bounds, and the handler of the first packet panics before it dials. *)
Theorem C10_ipv6_upstream_panics :
  To4 Sample.ip6 = [] ∧
  loopback_test (IP Sample.upstream6) = None ∧
  ∃ st, run Sample.first_packet (new_forwarder Sample.upstream6 Sample.second)
        = Some st
        ∧ crashed st = true ∧ trace st = [].
Proof.
  split; [reflexivity |]. split; [reflexivity |].
  eexists. split; [vm_compute; reflexivity |]. split; reflexivity.
Qed.

(** ** The refresh of [lastActive] *)

(** With a timeout of four nanoseconds or more and a clock that does not run
    backwards, the test of forward.go:182 always holds. *)
Lemma should_refresh_always (t la now : Z) :
  (4 ≤ t)%Z → (la ≤ now)%Z → should_refresh t la now = true.
Proof.
  intros Ht Hla. unfold should_refresh, Before, Add, quarter.
  apply Z.ltb_lt.
  assert (1 ≤ t ÷ 4)%Z; [| lia].
  change 1%Z with (4 ÷ 4)%Z. apply Z.quot_le_mono; lia.
Qed.

(** C3, at the failing input: timeout 40 s, session established at second
    100, a second datagram forwarded at second 101.  One second is less than
    timeout/4 = 10 s, and still [lastActive] moves to second 101. *)
Theorem C3_refresh_before_quarter_timeout :
  should_refresh (40 * Sample.second) (100 * Sample.second)
    (101 * Sample.second) = true ∧
  ∃ st1 st2,
    run (take 9 Sample.one_second_later) Sample.fwd = Some st1 ∧
    lastActive <$> heap st1 !! 0 = Some (100 * Sample.second)%Z ∧
    run Sample.one_second_later Sample.fwd = Some st2 ∧
    threads st2 !! 2 = Some Done ∧
    lastActive <$> heap st2 !! 0 = Some (101 * Sample.second)%Z.
Proof.
  split; [reflexivity |].
  do 2 eexists.
  split; [vm_compute; reflexivity |]. split; [reflexivity |].
  split; [vm_compute; reflexivity |]. split; reflexivity.
Qed.

(** ** Start-up *)

(** C8: when the resolution of the listen address, the resolution of the
    upstream address or the bind of the listening socket fails, [Forward]
    returns that error and no forwarder, and has started no goroutine. *)
Theorem C8_Forward_failure (env : Env) (src dst : string) (t : Z) (e : string) :
  ResolveUDPAddr env src = inr e
  ∨ (∃ listenAddr, ResolveUDPAddr env src = inl listenAddr
       ∧ (ResolveUDPAddr env dst = inr e
          ∨ (∃ ra, ResolveUDPAddr env dst = inl ra
               ∧ ListenUDP env listenAddr = inr e))) →
  Forward env src dst t = {| forwarder := None; err := Some e; spawned := [] |}.
Proof.
  unfold Forward, failed.
  intros [-> | (la & -> & [Hd | (ra & Hd & ->)])]; [done | |];
    rewrite Hd; reflexivity.
Qed.

Lemma C8_Forward_failure_witness :
  Forward Sample.env_nobind "0.0.0.0:4500" "10.0.0.2:4500" Sample.second
  = {| forwarder := None; err := Some "address already in use"; spawned := [] |}.
Proof.
  apply C8_Forward_failure. right.
  exists Sample.upstream4. split; [reflexivity |].
  right. exists Sample.upstream4. split; reflexivity.
Defined.

(** Conversely [Forward] fails only so, and otherwise starts both
    goroutines. *)
Lemma Forward_total (env : Env) (src dst : string) (t : Z) :
  (∃ e, Forward env src dst t = failed e)
  ∨ (∃ ra, Forward env src dst t
           = {| forwarder := Some (new_forwarder ra t); err := None;
                spawned := [TJanitor; TRun] |}).
Proof.
  unfold Forward.
  destruct (ResolveUDPAddr env src) as [la | e]; [| by left; eexists].
  destruct (ResolveUDPAddr env dst) as [ra | e]; [| by left; eexists].
  destruct (ListenUDP env la) as [[] | e]; [| by left; eexists].
  right. by eexists.
Qed.

(** ** Concurrent first packets *)

(** C1, at the failing input: two first packets from one address whose
    handlers both [Load] before either [Store]s.  Both handlers miss, both
    store a session, both dial: two dials, two session objects (the second
    [Store] replaces the first in the table), two relay loops. *)
Theorem C1_two_creators :
  ∃ st, run Sample.race Sample.fwd = Some st
        ∧ dials Sample.cli (trace st) = 2
        ∧ length (heap st) = 2
        ∧ clients st !! Sample.cli = Some 1
        ∧ threads st = [JCheck; HRelayRead 0 Sample.cli; HRelayRead 1 Sample.cli]
        ∧ trace st = [EDial Sample.cli false true; EOpenGate 0;
                      EConnect Sample.cli; EWriteUp 0 0 Sample.P1;
                      EDial Sample.cli false true; EOpenGate 1;
                      EConnect Sample.cli; EWriteUp 1 1 Sample.P2].
Proof.
  eexists. split; [vm_compute; reflexivity |].
  repeat split; reflexivity.
Qed.

(** ** The invariant of the interleaving semantics *)

Lemma heap_le_refl h : heap_le h h.
Proof. intros p k Hk. eauto. Qed.

Lemma heap_le_app h k : heap_le h (h ++ [k]).
Proof. intros p k0 Hk. exists k0. split; [by apply lookup_app_l_Some | done]. Qed.

Lemma heap_le_alter h f p :
  (∀ k, (available k = true → available (f k) = true)
        ∧ (is_Some (rConn k) → is_Some (rConn (f k)))) →
  heap_le h (alter f p h).
Proof.
  intros Hf q k Hk. rewrite list_lookup_alter. case_decide as Hq.
  - subst q. rewrite Hk. simpl. exists (f k). split; [done |]. apply Hf.
  - eauto.
Qed.

Lemma heap_le_length h h' : heap_le h h' → length h ≤ length h'.
Proof.
  intros Hle. destruct (decide (length h ≤ length h')) as [|Hn]; [done |].
  destruct (lookup_lt_is_Some_2 h (length h')) as [k Hk]; [lia |].
  destruct (Hle _ _ Hk) as (k' & Hk' & _).
  apply lookup_lt_Some in Hk'. lia.
Qed.

Lemma heap_le_set_rConn h s p : heap_le h (alter (set_rConn (Some s)) p h).
Proof. apply heap_le_alter. intros k. simpl. eauto. Qed.

Lemma heap_le_set_lastActive h t p : heap_le h (alter (set_lastActive t) p h).
Proof. apply heap_le_alter. intros k. simpl. eauto. Qed.

Lemma heap_le_close_available h p : heap_le h (alter close_available p h).
Proof. apply heap_le_alter. intros k. simpl. eauto. Qed.

Lemma alter_lookup_eq (h : list connection) f p :
  p < length h → ∃ k0, h !! p = Some k0 ∧ alter f p h !! p = Some (f k0).
Proof.
  intros Hlt. destruct (lookup_lt_is_Some_2 h p Hlt) as [k0 Hk0].
  exists k0. split; [done |]. by rewrite list_lookup_alter_eq, Hk0.
Qed.

Lemma alter_lookup_inv (h : list connection) f p q k :
  alter f p h !! q = Some k →
  ∃ k0, h !! q = Some k0 ∧ (k = k0 ∨ (q = p ∧ k = f k0)).
Proof.
  rewrite list_lookup_alter. case_decide as Hq.
  - subst q. destruct (h !! p) as [k0|]; [| done]. intros [= <-]. eauto.
  - eauto.
Qed.

Lemma Inv_new_forwarder ra t : Inv (new_forwarder ra t).
Proof.
  split; simpl.
  - intros [|[|tid]] c p [=] Hc; simplify_eq.
  - intros [|[|tid]] c p [=] Hc; simplify_eq.
  - intros [|[|tid]] c p [=] Hc; simplify_eq.
  - intros p k Hk. by rewrite lookup_nil in Hk.
  - intros i p s d Hi. by rewrite lookup_nil in Hi.
Qed.

Lemma Inv_panic st : Inv st → Inv (panic st).
Proof. intros [? ? ? ? ?]. by split. Qed.

(** The one preservation argument: the heap grew, the trace was extended,
    the goroutines that moved stand where the heap allows, a gate that
    opened belongs to a dialled session and is in the trace, and a datagram
    written upstream belongs to a session whose gate had been opened. *)
Lemma Inv_mono st st' evs :
  Inv st →
  heap_le (heap st) (heap st') →
  trace st' = trace st ++ evs →
  (∀ tid c, threads st' !! tid = Some c →
     threads st !! tid = Some c ∨ pc_ok (heap st') c) →
  (∀ p k, heap st' !! p = Some k → available k = true →
     (∃ k0, heap st !! p = Some k0 ∧ available k0 = true)
     ∨ (is_Some (rConn k) ∧ EOpenGate p ∈ evs)) →
  (∀ p s d, EWriteUp p s d ∈ evs → ∃ j, trace st !! j = Some (EOpenGate p)) →
  Inv st'.
Proof.
  intros [I1 I2 I3 I4 I5] Hle Htr Hthr Hopen Hwr.
  pose proof (heap_le_length _ _ Hle) as Hlen.
  split.
  - intros tid c p Hl Hcp.
    destruct (Hthr _ _ Hl) as [Hold | (Hc & _ & _)]; [| eauto].
    specialize (I1 _ _ _ Hold Hcp). lia.
  - intros tid c p Hl Hcp.
    destruct (Hthr _ _ Hl) as [Hold | (_ & Hc & _)]; [| eauto].
    destruct (I2 _ _ _ Hold Hcp) as (k & Hk & Hs).
    destruct (Hle _ _ Hk) as (k' & Hk' & _ & Hr). eauto.
  - intros tid c p Hl Hcp.
    destruct (Hthr _ _ Hl) as [Hold | (_ & _ & Hc)]; [| eauto].
    destruct (I3 _ _ _ Hold Hcp) as (k & Hk & Hs).
    destruct (Hle _ _ Hk) as (k' & Hk' & Ha & _). eauto.
  - intros p k Hk Ha. rewrite Htr.
    destruct (Hopen _ _ Hk Ha) as [(k0 & Hk0 & Ha0) | [Hr Hin]].
    + destruct (I4 _ _ Hk0 Ha0) as [Hs [j Hj]].
      destruct (Hle _ _ Hk0) as (k' & Hk' & _ & Hr).
      rewrite Hk in Hk'. injection Hk' as <-.
      split; [auto |]. exists j. by apply lookup_app_l_Some.
    + split; [done |]. apply list_elem_of_lookup in Hin as [j Hj].
      exists (length (trace st) + j).
      by rewrite lookup_app_r, Nat.add_comm, Nat.add_sub by lia.
  - intros i p s d Hi. rewrite Htr in Hi |- *.
    apply lookup_app_Some in Hi as [Hi | [Hge Hi]].
    + destruct (I5 _ _ _ _ Hi) as (j & Hlt & Hj).
      exists j. split; [done |]. by apply lookup_app_l_Some.
    + destruct (Hwr p s d) as [j Hj]; [eapply list_elem_of_lookup_2; eauto |].
      exists j. split; [apply lookup_lt_Some in Hj; lia |].
      by apply lookup_app_l_Some.
Qed.

(** The case of one goroutine moving from its statement to [c']. *)
Lemma Inv_step st st' tid c' evs :
  Inv st →
  threads st' = <[tid := c']> (threads st) →
  heap_le (heap st) (heap st') →
  trace st' = trace st ++ evs →
  (∀ p, creating c' = Some p → p < length (heap st')) →
  (∀ p, dialled c' = Some p → ∃ k, heap st' !! p = Some k ∧ is_Some (rConn k)) →
  (∀ p, past_gate c' = Some p → ∃ k, heap st' !! p = Some k ∧ available k = true) →
  (∀ p k, heap st' !! p = Some k → available k = true →
     (∃ k0, heap st !! p = Some k0 ∧ available k0 = true)
     ∨ (is_Some (rConn k) ∧ EOpenGate p ∈ evs)) →
  (∀ p s d, EWriteUp p s d ∈ evs → ∃ j, trace st !! j = Some (EOpenGate p)) →
  Inv st'.
Proof.
  intros HI Hthr Hle Htr Hc Hd Hp Hopen Hwr.
  apply (Inv_mono st st' evs); try done.
  intros tid0 c Hl. rewrite Hthr in Hl.
  apply list_lookup_insert_Some in Hl as [(-> & <- & _) | (_ & Hl)]; [| by left].
  right. done.
Qed.

Ltac new_pc HI Htid :=
  intros ? [= <-];
  first
    [ eapply (inv_creating _ HI _ _ _ Htid); reflexivity
    | eapply (inv_dialled _ HI _ _ _ Htid); reflexivity
    | eapply (inv_past _ HI _ _ _ Htid); reflexivity
    | rewrite length_alter; eapply (inv_creating _ HI _ _ _ Htid); reflexivity
    | rewrite length_app; simpl; lia ].

Ltac old_gate :=
  let p := fresh "p" in let k := fresh "k" in
  let Hk := fresh "Hk" in let Ha := fresh "Ha" in
  intros p k Hk Ha;
  first
    [ left; by eauto
    | apply alter_lookup_inv in Hk as (? & ? & [-> | [-> ->]]);
      simpl in *; left; by eauto
    | apply lookup_app_Some in Hk as [Hk | [_ Hk]];
      [ left; by eauto
      | apply list_lookup_singleton_Some in Hk as [_ <-]; discriminate Ha ] ].

Ltac no_write :=
  let H := fresh "Hin" in
  intros ? ? ? H;
  first [ by apply elem_of_nil in H
        | apply list_elem_of_singleton in H; discriminate H ].

Ltac heap_grows :=
  simpl;
  first [ apply heap_le_refl | apply heap_le_app | apply heap_le_set_rConn
        | apply heap_le_set_lastActive | apply heap_le_close_available ].

Ltac trace_grows := first [ reflexivity | symmetry; apply app_nil_r ].

Lemma exec_Inv o tid c st st' :
  Inv st → threads st !! tid = Some c → exec o tid c st = Some st' → Inv st'.
Proof.
  intros HI Htid Hex.
  destruct c; simpl in Hex;
    unfold write_up, write_down, close_rConn, close_sock in Hex;
    repeat case_match; simplify_eq; try (by apply Inv_panic).
  all: first
    [ eapply (Inv_step st _ tid _ []);
      [done | reflexivity | heap_grows | trace_grows | simpl; try done .. ]
    | eapply (Inv_step st _ tid _ [_]);
      [done | reflexivity | heap_grows | trace_grows | simpl; try done .. ] ].
  all: try no_write.
  all: try old_gate.
  all: try (new_pc HI Htid).
  - (* :137, the socket is stored *)
    intros ? [= <-].
    destruct (alter_lookup_eq (heap st) (set_rConn (Some s)) p) as (k0 & _ & ->).
    { eapply (inv_creating _ HI _ _ _ Htid); reflexivity. }
    eexists. split; [done |]. simpl. eauto.
  - (* :138 *)
    intros ? [= <-].
    destruct (inv_dialled _ HI _ _ _ Htid eq_refl) as (k & Hk & Hs).
    rewrite list_lookup_alter_eq, Hk. simpl. eauto.
  - (* :139, the gate is open for its creator *)
    intros ? [= <-].
    destruct (inv_dialled _ HI _ _ _ Htid eq_refl) as (k & Hk & Hs).
    rewrite list_lookup_alter_eq, Hk. simpl. eauto.
  - (* :139, the gate that opens is the gate of a dialled session *)
    intros q k Hk Ha.
    destruct (inv_dialled _ HI _ _ _ Htid eq_refl) as (k1 & Hk1 & Hs).
    apply alter_lookup_inv in Hk as (k0 & Hk0 & [-> | [-> ->]]);
      [left; by eauto |].
    right. simplify_eq. split; [done |]. by apply list_elem_of_singleton.
  - (* :143, the first datagram *)
    intros ? ? ? Hin. apply list_elem_of_singleton in Hin. simplify_eq.
    destruct (inv_past _ HI _ _ _ Htid eq_refl) as (k & Hk & Ha).
    by destruct (inv_open _ HI _ _ Hk Ha) as [_ ?].
  - (* :171, the gate was found open *)
    intros ? [= <-]. eauto.
  - (* :174, a datagram that waited *)
    intros ? ? ? Hin. apply list_elem_of_singleton in Hin. simplify_eq.
    destruct (inv_past _ HI _ _ _ Htid eq_refl) as (k & Hk & Ha).
    by destruct (inv_open _ HI _ _ Hk Ha) as [_ ?].
Qed.

(** ** Stop *)

Lemma closes_only_refl st : closes_only st st.
Proof.
  repeat split; try done. exists []. split; [by rewrite app_nil_r | done].
Qed.

Lemma closes_only_trans st1 st2 st3 :
  closes_only st1 st2 → closes_only st2 st3 → closes_only st1 st3.
Proof.
  intros (Hh & Ht & Hc & Hcl & Hl & Hn & Hs & evs & Htr & Hev)
         (Hh' & Ht' & Hc' & Hcl' & Hl' & Hn' & Hs' & evs' & Htr' & Hev').
  repeat split; try congruence; [auto |].
  exists (evs ++ evs'). split; [by rewrite Htr', Htr, app_assoc |].
  by apply Forall_app.
Qed.

Lemma closes_only_panic st : closes_only st (panic st).
Proof.
  repeat split; try done. exists []. split; [by simpl; rewrite app_nil_r | done].
Qed.

Lemma closes_only_close_sock s st : closes_only st (close_sock s st).
Proof.
  repeat split; simpl; try done.
  - apply length_insert.
  - intros s0 Hs0. destruct (decide (s = s0)) as [-> |].
    + rewrite list_lookup_insert_eq; [done |]. by eapply lookup_lt_Some.
    + by rewrite list_lookup_insert_ne.
  - exists [ECloseSock s]. split; [done |]. by repeat constructor.
Qed.

Lemma closes_only_close_rConn p st : closes_only st (close_rConn p st).
Proof.
  unfold close_rConn. destruct (rConn_of p st).
  - apply closes_only_close_sock.
  - apply closes_only_panic.
Qed.

Lemma closes_only_close_entry st kv : closes_only st (close_entry st kv).
Proof.
  unfold close_entry. destruct (crashed st).
  - apply closes_only_refl.
  - apply closes_only_close_rConn.
Qed.

Lemma closes_only_foldl l st : closes_only st (foldl close_entry st l).
Proof.
  revert st. induction l as [|kv l IH]; intros st; simpl.
  - apply closes_only_refl.
  - eapply closes_only_trans; [apply closes_only_close_entry | apply IH].
Qed.

(** [Close] removes no entry of the table, whatever the table holds. *)
Lemma Close_clients st : clients (Close st) = clients st.
Proof.
  unfold Close.
  pose proof (closes_only_foldl (map_to_list (clients (set_closed true st)))
                (set_closed true st)) as (_ & _ & Hc & _).
  destruct (crashed _); simpl in *; by rewrite Hc.
Qed.

Lemma Close_frame st :
  heap (Close st) = heap st ∧ threads (Close st) = threads st
  ∧ ∃ evs, trace (Close st) = trace st ++ evs
           ∧ Forall (λ e, is_close e = true) evs.
Proof.
  unfold Close.
  pose proof (closes_only_foldl (map_to_list (clients (set_closed true st)))
                (set_closed true st))
    as (Hh & Ht & _ & _ & _ & _ & _ & evs & Htr & Hev).
  destruct (crashed _); simpl in *.
  - repeat split; [by rewrite Hh | by rewrite Ht |]. by exists evs.
  - repeat split; [by rewrite Hh | by rewrite Ht |].
    exists (evs ++ [ECloseListener]). split.
    + rewrite Htr. by rewrite app_assoc.
    + apply Forall_app. split; [done |]. by repeat constructor.
Qed.

(** With every session dialled, the iteration of [Close] closes the socket
    of each entry it visits and does not panic. *)
Lemma foldl_close_entry_dialled l st :
  crashed st = false →
  Forall (λ kv, ∃ s, rConn_of kv.2 st = Some s ∧ s < length (socks st)) l →
  crashed (foldl close_entry st l) = false
  ∧ Forall (λ kv, ∀ s, rConn_of kv.2 st = Some s →
                       socks (foldl close_entry st l) !! s = Some SockClosed) l.
Proof.
  revert st. induction l as [|kv l IH]; intros st Hcr Hall; simpl; [done |].
  apply Forall_cons in Hall as [(s & Hs & Hlt) Hall].
  assert (close_entry st kv = close_sock s st) as ->.
  { unfold close_entry, close_rConn. by rewrite Hcr, Hs. }
  destruct (IH (close_sock s st)) as [Hcr' Hcl]; [done | |].
  { eapply Forall_impl; [exact Hall |]. simpl. intros kv' (s' & Hs' & Hlt').
    exists s'. split; [done |]. by rewrite length_insert. }
  split; [done |]. constructor; [| done].
  intros s0 Hs0. assert (s0 = s) as -> by congruence.
  pose proof (closes_only_foldl l (close_sock s st))
    as (_ & _ & _ & _ & _ & _ & Hkeep & _).
  apply Hkeep. simpl. by apply list_lookup_insert_eq.
Qed.

(** When every session of the table has its socket, [Close] sets the
    shutdown flag, closes the upstream socket of every session of the table
    and the listening socket, and leaves the table (and the session objects
    and the goroutines) as they were. *)
Lemma Close_dialled_table (st : State) :
  crashed st = false → all_dialled st →
  closed (Close st) = true
  ∧ (∀ key p s, clients st !! key = Some p → rConn_of p st = Some s →
                socks (Close st) !! s = Some SockClosed)
  ∧ listenerConn (Close st) = SockClosed
  ∧ crashed (Close st) = false
  ∧ clients (Close st) = clients st
  ∧ heap (Close st) = heap st
  ∧ threads (Close st) = threads st.
Proof.
  intros Hcr Hall.
  pose proof (Close_clients st) as Hc.
  destruct (Close_frame st) as (Hh & Ht & _).
  unfold Close in *.
  set (st1 := set_closed true st) in *.
  set (l := map_to_list (clients st1)) in *.
  destruct (foldl_close_entry_dialled l st1) as [Hcr' Hcl]; [done | |].
  { apply Forall_forall. intros [k p] Hin.
    apply elem_of_map_to_list in Hin. by apply (Hall k p). }
  pose proof (closes_only_foldl l st1) as (_ & _ & _ & Hclosed & _).
  rewrite Hcr' in *.
  split_and!; try done.
  intros key p s Hk Hs.
    change (socks (foldl close_entry st1 l) !! s = Some SockClosed).
    rewrite Forall_forall in Hcl.
    apply (Hcl (key, p)); [| done]. by apply elem_of_map_to_list.
Qed.

(** ** Every reachable state satisfies the invariant *)

Lemma step_Inv a st st' : Inv st → step a st = Some st' → Inv st'.
Proof.
  intros HI Hst. unfold step in Hst.
  destruct (crashed st); [done |].
  destruct a as [data addr | tid o |].
  - (* a packet arrives: a new goroutine at the head of handle *)
    destruct (listenerConn st); [| done]. injection Hst as <-.
    apply (Inv_mono st _ []); simpl;
      [done | apply heap_le_refl | by rewrite app_nil_r | | by left; eauto | ].
    + intros tid c Hl.
      apply lookup_app_Some in Hl as [Hl | [_ Hl]]; [by left |].
      apply list_lookup_singleton_Some in Hl as [_ <-].
      right. repeat split; intros p [=].
    + intros p s d Hin. by apply elem_of_nil in Hin.
  - destruct (threads st !! tid) as [c|] eqn:Htid; [| done].
    by eapply exec_Inv.
  - injection Hst as <-.
    destruct (Close_frame st) as (Hh & Ht & evs & Htr & Hev).
    apply (Inv_mono st _ evs); [done | | done | | |].
    + rewrite Hh. apply heap_le_refl.
    + intros tid c Hl. left. by rewrite <- Ht.
    + intros p k Hk Ha. left. rewrite Hh in Hk. eauto.
    + intros p s d Hin. rewrite Forall_forall in Hev.
      by specialize (Hev _ Hin).
Qed.

Lemma run_Inv sched st st' : Inv st → run sched st = Some st' → Inv st'.
Proof.
  revert st. induction sched as [|a sched IH]; intros st HI Hrun; simpl in Hrun.
  - by injection Hrun as <-.
  - destruct (step a st) as [st1|] eqn:Hst; [| done].
    eapply IH; [| exact Hrun]. by eapply step_Inv.
Qed.

Lemma reachable_Inv sched ra t st :
  run sched (new_forwarder ra t) = Some st → Inv st.
Proof. apply run_Inv, Inv_new_forwarder. Qed.

(** ** The gate and the first datagram *)

(** C2, counterexample: the creator opens the gate, a second datagram of the
    same client passes the gate and is written upstream, and only then the
    creator writes the datagram that triggered the session.  The gate opens
    with no datagram written before. *)
Lemma C2_gate_opens_before_first_write :
  ∃ st, run Sample.overtaking Sample.fwd = Some st
        ∧ trace st = [EDial Sample.cli false true; EOpenGate 0;
                      EWriteUp 0 0 Sample.P2; EConnect Sample.cli;
                      EWriteUp 0 0 Sample.P1]
        ∧ ¬ write_precedes_gate (trace st).
Proof.
  eexists. split; [vm_compute; reflexivity |]. split; [reflexivity |].
  intros Hclaim. destruct (Hclaim 1 0 eq_refl) as (j & s & d & Hlt & Hj).
  destruct j as [|[|j]]; [discriminate Hj | lia | lia].
Qed.

(** C2, amended: in every execution, every datagram written to the upstream
    socket of a session, the triggering one included, is written after the
    gate of that session was opened. *)
Theorem C2_writes_follow_gate (sched : list action) (ra : UDPAddr) (t : Z)
    (st : State) (i p s : nat) (d : list byte) :
  run sched (new_forwarder ra t) = Some st →
  trace st !! i = Some (EWriteUp p s d) →
  ∃ j, j < i ∧ trace st !! j = Some (EOpenGate p).
Proof.
  intros Hrun Hi. eapply inv_order; [| exact Hi]. by eapply reachable_Inv.
Qed.

Lemma C2_writes_follow_gate_witness :
  ∃ st, run Sample.overtaking Sample.fwd = Some st
        ∧ ∃ j, j < 4 ∧ trace st !! j = Some (EOpenGate 0).
Proof.
  eexists. split; [vm_compute; reflexivity |].
  eapply (C2_writes_follow_gate Sample.overtaking Sample.upstream4
            (40 * Sample.second) _ 4 0 0 Sample.P1).
  - vm_compute. reflexivity.
  - reflexivity.
Defined.

(** The creator stands before its write with the gate already open, and a
    sender past the gate finds the socket stored: no write goes through a
    nil connection. *)
Lemma gate_open_at_write sched ra t st tid p data addr :
  run sched (new_forwarder ra t) = Some st →
  threads st !! tid = Some (HFirstWrite p data addr)
  ∨ threads st !! tid = Some (HWrite p data addr) →
  ∃ k s, heap st !! p = Some k ∧ available k = true ∧ rConn k = Some s.
Proof.
  intros Hrun Hthr. pose proof (reachable_Inv _ _ _ _ Hrun) as HI.
  assert (∃ k, heap st !! p = Some k ∧ available k = true) as (k & Hk & Ha).
  { destruct Hthr as [H | H]; eapply (inv_past _ HI _ _ _ H); reflexivity. }
  destruct (inv_open _ HI _ _ Hk Ha) as [[s Hs] _]. eauto.
Qed.

(** ** A gate nobody opens *)

Lemma abandoned_mono p st st' :
  abandoned p st →
  (∀ k, heap st !! p = Some k →
     ∃ k', heap st' !! p = Some k' ∧ available k' = available k) →
  (∀ tid c, threads st' !! tid = Some c →
     threads st !! tid = Some c ∨ creating c ≠ Some p) →
  abandoned p st'.
Proof.
  intros [(k & Hk & Ha) Hno] Hheap Hthr. split.
  - destruct (Hheap _ Hk) as (k' & Hk' & Ha'). exists k'. split; [done | congruence].
  - intros tid c Hl. destruct (Hthr _ _ Hl) as [Hold | Hnew]; [eauto | done].
Qed.

Lemma abandoned_step p st st' tid c' :
  abandoned p st →
  threads st' = <[tid := c']> (threads st) →
  (∀ k, heap st !! p = Some k →
     ∃ k', heap st' !! p = Some k' ∧ available k' = available k) →
  creating c' ≠ Some p →
  abandoned p st'.
Proof.
  intros Hab Hthr Hheap Hc. apply (abandoned_mono p st); [done | done |].
  intros tid0 c Hl. rewrite Hthr in Hl.
  apply list_lookup_insert_Some in Hl as [(-> & <- & _) | (_ & Hl)]; [by right | by left].
Qed.

Lemma available_alter (h : list connection) f q p k :
  (∀ k, available (f k) = available k) →
  h !! p = Some k →
  ∃ k', alter f q h !! p = Some k' ∧ available k' = available k.
Proof.
  intros Hf Hk. rewrite list_lookup_alter. case_decide as Hq.
  - subst q. rewrite Hk. simpl. eauto.
  - eauto.
Qed.

Lemma exec_abandoned o tid c st st' p :
  abandoned p st → threads st !! tid = Some c →
  exec o tid c st = Some st' → abandoned p st'.
Proof.
  intros Hab Htid Hex.
  pose proof Hab as [(k0 & Hk0 & Ha0) Hno].
  pose proof (Hno _ _ Htid) as Hme.
  destruct c; simpl in Hex;
    unfold write_up, write_down, close_rConn, close_sock in Hex;
    repeat case_match; simplify_eq; try done.
  all: eapply (abandoned_step p st _ tid); [done | reflexivity | simpl | simpl in *; try congruence].
  all: try (intros k Hk; by eauto).
  all: try (intros k Hk; by apply available_alter).
  - intros k Hk. exists k. split; [by apply lookup_app_l_Some | done].
  - apply lookup_lt_Some in Hk0. intros [= ?]. lia.
  - intros k Hk. exists k. split; [| done].
    rewrite list_lookup_alter_ne; [done |]. simpl in Hme. congruence.
Qed.

Lemma step_abandoned a st st' p :
  abandoned p st → step a st = Some st' → abandoned p st'.
Proof.
  intros Hab Hst. unfold step in Hst.
  destruct (crashed st); [done |].
  destruct a as [data addr | tid o |].
  - destruct (listenerConn st); [| done]. injection Hst as <-.
    apply (abandoned_mono p st); [done | by eauto |]. simpl.
    intros tid c Hl.
    apply lookup_app_Some in Hl as [Hl | [_ Hl]]; [by left |].
    apply list_lookup_singleton_Some in Hl as [_ <-]. by right.
  - destruct (threads st !! tid) as [c|] eqn:Htid; [| done].
    by eapply exec_abandoned.
  - injection Hst as <-.
    destruct (Close_frame st) as (Hh & Ht & _).
    apply (abandoned_mono p st); [done | |].
    + rewrite Hh. eauto.
    + rewrite Ht. by left.
Qed.

Lemma run_abandoned sched st st' p :
  abandoned p st → run sched st = Some st' → abandoned p st'.
Proof.
  revert st. induction sched as [|a sched IH]; intros st Hab Hrun; simpl in Hrun.
  - by injection Hrun as <-.
  - destruct (step a st) as [st1|] eqn:Hst; [| done].
    eapply IH; [| exact Hrun]. by eapply step_abandoned.
Qed.

(** A goroutine that waits on an abandoned gate cannot move. *)
Lemma waiter_stuck st w p data addr o :
  abandoned p st → threads st !! w = Some (HWait p data addr) →
  step (AStep w o) st = None.
Proof.
  intros [(k & Hk & Ha) _] Hw. unfold step.
  destruct (crashed st); [done |]. rewrite Hw. simpl. by rewrite Hk, Ha.
Qed.

(** No step of the program moves a goroutine other than the one named. *)
Lemma step_other_thread a st st' w c :
  step a st = Some st' → threads st !! w = Some c →
  (∀ o, a ≠ AStep w o) → threads st' !! w = Some c.
Proof.
  intros Hst Hw Hne. unfold step in Hst.
  destruct (crashed st); [done |].
  destruct a as [data addr | tid o |].
  - destruct (listenerConn st); [| done]. injection Hst as <-. simpl.
    by apply lookup_app_l_Some.
  - destruct (threads st !! tid) as [c0|] eqn:Htid; [| done]. simpl in Hst.
    assert (tid ≠ w) as Htw by (intros ->; by apply (Hne o)).
    destruct c0; simpl in Hst;
      unfold write_up, write_down, close_rConn, close_sock in Hst;
      repeat case_match; simplify_eq; simpl; try done;
      by rewrite list_lookup_insert_ne.
  - injection Hst as <-. destruct (Close_frame st) as (_ & Ht & _). by rewrite Ht.
Qed.

Lemma waiter_blocked_forever sched st st' w p data addr :
  abandoned p st → threads st !! w = Some (HWait p data addr) →
  run sched st = Some st' →
  threads st' !! w = Some (HWait p data addr)
  ∧ ∀ o, step (AStep w o) st' = None.
Proof.
  revert st. induction sched as [|a sched IH]; intros st Hab Hw Hrun; simpl in Hrun.
  - injection Hrun as <-. split; [done |]. intros o. by eapply waiter_stuck.
  - destruct (step a st) as [st1|] eqn:Hst; [| done]. simpl in Hrun.
    eapply IH; [by eapply step_abandoned | | exact Hrun].
    eapply step_other_thread; [exact Hst | exact Hw |].
    intros o ->. by rewrite (waiter_stuck st w p data addr o) in Hst.
Qed.

(** C5, at the failing input: the handler of a second packet loads the
    session while the creator is dialling; the dial fails, the creator
    deletes the entry and returns without closing [available].  The second
    handler stands at forward.go:171 and, whatever the forwarder does from
    then on, stays there: no step of it is ever enabled again. *)
Theorem C5_waiter_never_released :
  ∃ st, run Sample.failed_dial Sample.fwd = Some st
        ∧ trace st = [EDial Sample.cli false false]
        ∧ threads st = [JCheck; Done; HWait 0 Sample.P2 Sample.cli]
        ∧ available <$> heap st !! 0 = Some false
        ∧ clients st !! Sample.cli = None
        ∧ ∀ sched st', run sched st = Some st' →
            threads st' !! 2 = Some (HWait 0 Sample.P2 Sample.cli)
            ∧ ∀ o, step (AStep 2 o) st' = None.
Proof.
  eexists. split; [vm_compute; reflexivity |].
  split_and!; try reflexivity.
  intros sched st' Hrun.
  refine (waiter_blocked_forever sched _ st' 2 0 Sample.P2 Sample.cli _ _ Hrun);
    [| reflexivity].
  split.
  - eexists. split; reflexivity.
  - intros [|[|[|tid]]] c [=] Hc; simplify_eq.
Qed.

(** ** A dial that fails *)

Lemma step_exec tid o c st :
  crashed st = false → threads st !! tid = Some c →
  step (AStep tid o) st = exec o tid c st.
Proof. intros Hcr Hc. unfold step. by rewrite Hcr, Hc. Qed.

Lemma goto_lookup tid c c0 st :
  threads st !! tid = Some c0 → threads (goto tid c st) !! tid = Some c.
Proof. intros H. simpl. apply list_lookup_insert_eq. by eapply lookup_lt_Some. Qed.


Lemma step_packet data addr st :
  crashed st = false → listenerConn st = SockOpen →
  step (APacket data addr) st
  = Some (set_threads (threads st ++ [HLoad data addr]) st).
Proof. intros Hcr Hl. unfold step. by rewrite Hcr, Hl. Qed.

(** A handler that finds no session, stores one and fails to dial, run on its
    own from any state. *)
Lemma failed_handler (st : State) (tid : nat) (data : list byte)
    (addr : string) (lb : bool) (o1 o2 o3 o4 : oracle) :
  crashed st = false →
  threads st !! tid = Some (HLoad data addr) →
  clients st !! addr = None →
  loopback_test (IP (raddr st)) = Some lb →
  o_ok o3 = false →
  ∃ st1,
    run [AStep tid o1; AStep tid o2; AStep tid o3; AStep tid o4] st = Some st1
    ∧ threads st1 = <[tid := Done]> (threads st)
    ∧ clients st1 = clients st
    ∧ heap st1 = heap st ++ [new_connection (o_now o2)]
    ∧ socks st1 = socks st
    ∧ trace st1 = trace st ++ [EDial addr lb false]
    ∧ crashed st1 = false ∧ listenerConn st1 = listenerConn st
    ∧ raddr st1 = raddr st.
Proof.
  intros Hcr Htid Hnone Hlb Hfail.
  pose proof (lookup_lt_Some _ _ _ Htid) as Hlt.
  eexists. split.
  { simpl. rewrite (step_exec tid o1 _ st Hcr Htid). simpl. rewrite Hnone. simpl.
    erewrite step_exec; [| done | by eapply goto_lookup]. simpl.
    erewrite step_exec;
      [| done | simpl; apply list_lookup_insert_eq; by rewrite length_insert].
    simpl. rewrite Hlb, Hfail. simpl.
    erewrite step_exec;
      [| done | simpl; apply list_lookup_insert_eq; by rewrite !length_insert].
    simpl. reflexivity. }
  simpl. rewrite !list_insert_insert_eq.
  split_and!; try done. by apply delete_insert_id.
Qed.

(** The handler of a packet that arrives when the table has no entry for its
    sender: it stores a new session and dials. *)
Lemma fresh_attempt (st : State) (data : list byte) (addr : string)
    (lb : bool) (o1 o2 o3 : oracle) :
  crashed st = false → listenerConn st = SockOpen →
  clients st !! addr = None →
  loopback_test (IP (raddr st)) = Some lb →
  ∃ st2,
    run [APacket data addr; AStep (length (threads st)) o1;
         AStep (length (threads st)) o2; AStep (length (threads st)) o3] st
    = Some st2
    ∧ clients st2 = <[addr := length (heap st)]> (clients st)
    ∧ heap st2 = heap st ++ [new_connection (o_now o2)]
    ∧ trace st2 = trace st ++ [EDial addr lb (o_ok o3)]
    ∧ threads st2 !! length (threads st)
      = Some (if o_ok o3
              then HSetConn (length (heap st)) (length (socks st)) data addr
              else HDialFail addr).
Proof.
  intros Hcr Hl Hnone Hlb.
  assert (∀ c, (<[length (threads st) := c]> (threads st ++ [HLoad data addr]))
               = threads st ++ [c]) as Hins.
  { intros c. rewrite insert_app_r_alt, Nat.sub_diag by lia. done. }
  destruct (o_ok o3) eqn:Hok.
  all: eexists; split.
  all: try (simpl; rewrite (step_packet data addr st Hcr Hl); simpl;
    erewrite step_exec; [| done | simpl; apply list_lookup_middle; done];
    simpl; rewrite Hnone; simpl;
    erewrite step_exec;
      [| done | simpl; rewrite Hins; apply list_lookup_middle; done];
    simpl;
    erewrite step_exec;
      [| done | simpl; rewrite Hins; simpl;
                rewrite insert_app_r_alt, Nat.sub_diag by lia;
                apply list_lookup_middle; done];
    simpl; rewrite Hlb, Hok; simpl; reflexivity).
  all: simpl; split_and!; try done.
  all: rewrite Hins; simpl; rewrite !insert_app_r_alt, ?Nat.sub_diag by lia; simpl;
    by apply list_lookup_middle.
Qed.

(** With no other goroutine running in between: a handler that finds no
    session for its client and whose dial fails removes the entry it stored
    and returns: the table is as it was before, without an entry for the
    client; the session object is left with its gate shut and no socket;
    nothing was written upstream and no hook was called.  The handler of a
    packet of that client that arrives afterwards finds no entry, stores a
    new session object and dials again. *)
Lemma dial_failure_alone (st : State) (tid : nat) (data data' : list byte)
    (addr : string) (lb : bool) (o1 o2 o3 o4 o5 o6 o7 : oracle) :
  crashed st = false → listenerConn st = SockOpen →
  threads st !! tid = Some (HLoad data addr) →
  clients st !! addr = None →
  loopback_test (IP (raddr st)) = Some lb →
  o_ok o3 = false →
  ∃ st1,
    run [AStep tid o1; AStep tid o2; AStep tid o3; AStep tid o4] st = Some st1
    ∧ threads st1 = <[tid := Done]> (threads st)
    ∧ clients st1 !! addr = None
    ∧ clients st1 = clients st
    ∧ heap st1 = heap st ++ [new_connection (o_now o2)]
    ∧ socks st1 = socks st
    ∧ trace st1 = trace st ++ [EDial addr lb false]
    ∧ ∃ st2,
        run [APacket data' addr; AStep (length (threads st)) o5;
             AStep (length (threads st)) o6; AStep (length (threads st)) o7] st1
        = Some st2
        ∧ clients st2 = <[addr := S (length (heap st))]> (clients st)
        ∧ heap st2 = heap st1 ++ [new_connection (o_now o6)]
        ∧ trace st2 = trace st1 ++ [EDial addr lb (o_ok o7)]
        ∧ threads st2 !! length (threads st)
          = Some (if o_ok o7
                  then HSetConn (S (length (heap st))) (length (socks st)) data' addr
                  else HDialFail addr).
Proof.
  intros Hcr Hl Htid Hnone Hlb Hfail.
  destruct (failed_handler st tid data addr lb o1 o2 o3 o4)
    as (st1 & Hrun & Hthr & Hcl & Hheap & Hsocks & Htr & Hcr1 & Hl1 & Hra);
    try done.
  exists st1. split_and!; try done; [congruence |].
  destruct (fresh_attempt st1 data' addr lb o5 o6 o7)
    as (st2 & Hrun2 & Hcl2 & Hheap2 & Htr2 & Hthr2); try congruence.
  exists st2.
  rewrite Hthr, length_insert in Hrun2, Hthr2.
  rewrite Hheap, length_app, Hsocks, Hcl in *. simpl in *.
  rewrite Nat.add_1_r in *.
  split_and!; try done.
Qed.

Lemma dial_failure_alone_example :
  ∃ st1,
    run [AStep 1 (Sample.yes 1); AStep 1 (Sample.yes 1);
         AStep 1 (Sample.no 2); AStep 1 (Sample.yes 2)] Sample.arrived
    = Some st1
    ∧ clients st1 !! Sample.cli = None
    ∧ trace st1 = [EDial Sample.cli false false].
Proof.
  destruct (dial_failure_alone Sample.arrived 1 Sample.P1 Sample.P2 Sample.cli
              false (Sample.yes 1) (Sample.yes 1) (Sample.no 2) (Sample.yes 2)
              (Sample.yes 3) (Sample.yes 3) (Sample.yes 3))
    as (st1 & Hrun & _ & Hnone & _ & _ & _ & Htr & _); try reflexivity.
  exists st1. split; [exact Hrun |]. split; [exact Hnone | exact Htr].
Defined.

Lemma established_reachable :
  run Sample.establishing Sample.fwd = Some Sample.established.
Proof. vm_compute. reflexivity. Qed.

Lemma established_all_dialled : all_dialled Sample.established.
Proof.
  intros key p Hk.
  change (({[Sample.cli := 0]} : gmap string nat) !! key = Some p) in Hk.
  apply lookup_singleton_Some in Hk as [<- <-].
  exists 0. split; [reflexivity | simpl; lia].
Defined.

Lemma Close_dialled_table_example :
  closed (Close Sample.established) = true
  ∧ (∀ key p s, clients Sample.established !! key = Some p →
                rConn_of p Sample.established = Some s →
                socks (Close Sample.established) !! s = Some SockClosed)
  ∧ listenerConn (Close Sample.established) = SockClosed
  ∧ crashed (Close Sample.established) = false
  ∧ clients (Close Sample.established) = clients Sample.established
  ∧ heap (Close Sample.established) = heap Sample.established
  ∧ threads (Close Sample.established) = threads Sample.established.
Proof.
  apply Close_dialled_table; [reflexivity | exact established_all_dialled].
Defined.

(** ** The reaper *)

Lemma run_app s1 s2 st : run (s1 ++ s2) st = run s1 st ≫= run s2.
Proof.
  revert st. induction s1 as [|a s1 IH]; intros st; simpl; [done |].
  destruct (step a st) as [st1|]; simpl; [apply IH | done].
Qed.

Lemma solo_add o j a b : solo o j (a + b) = solo o j a ++ solo o j b.
Proof. apply replicate_add. Qed.

Lemma same_config_refl st : same_config st st.
Proof. by repeat split. Qed.

Lemma same_config_trans st1 st2 st3 :
  same_config st1 st2 → same_config st2 st3 → same_config st1 st3.
Proof. intros (?&?&?&?&?) (?&?&?&?&?). repeat split; congruence. Qed.

(** Phase 3 of the reaper alone: one hook per collected key. *)
Lemma hook_loop o j rest st :
  crashed st = false → threads st !! j = Some (JHook rest) →
  ∃ st', run (solo o j (length rest + 1)) st = Some st'
    ∧ threads st' = <[j := JCheck]> (threads st)
    ∧ clients st' = clients st ∧ heap st' = heap st ∧ socks st' = socks st
    ∧ trace st' = trace st ++ (EDisconnect <$> rest)
    ∧ same_config st st'.
Proof.
  revert st. induction rest as [|key rest IH]; intros st Hcr Hj.
  - eexists. split.
    { simpl. rewrite (step_exec j o _ st Hcr Hj). simpl. reflexivity. }
    simpl. rewrite app_nil_r. by repeat split.
  - destruct (IH (goto j (JHook rest) (emit (EDisconnect key) st)))
      as (st' & Hrun & Hthr & Hcl & Hh & Hs & Htr & Hcfg);
      [done | by eapply goto_lookup |].
    exists st'. split.
    { simpl. rewrite (step_exec j o _ st Hcr Hj). simpl. exact Hrun. }
    simpl in *. rewrite list_insert_insert_eq in Hthr.
    split_and!; try done. by rewrite Htr, <- app_assoc.
Qed.

(** Phase 2 of the reaper alone: each collected key is deleted and its
    socket closed.  [f] names the socket of each key. *)
Lemma evict_loop o j keys (f : string → option nat) rest st :
  crashed st = false → threads st !! j = Some (JEvict keys rest) →
  NoDup rest →
  (∀ key, key ∈ rest →
     ∃ p s, clients st !! key = Some p ∧ rConn_of p st = Some s ∧ f key = Some s) →
  ∃ st' ss, run (solo o j (2 * length rest + 1)) st = Some st'
    ∧ Forall2 (λ key s, f key = Some s) rest ss
    ∧ threads st' = <[j := JHook keys]> (threads st)
    ∧ clients st' = foldl (λ m key, delete key m) (clients st) rest
    ∧ heap st' = heap st
    ∧ socks st' = foldl (λ l s, <[s := SockClosed]> l) (socks st) ss
    ∧ trace st' = trace st ++ (ECloseSock <$> ss)
    ∧ same_config st st'.
Proof.
  revert st. induction rest as [|key rest IH]; intros st Hcr Hj Hnd Hall.
  - exists (goto j (JHook keys) st), []. split.
    { simpl. rewrite (step_exec j o _ st Hcr Hj). simpl. reflexivity. }
    simpl. rewrite app_nil_r. by repeat split.
  - apply NoDup_cons in Hnd as [Hnotin Hnd].
    destruct (Hall key) as (p & s & Hp & Hs & Hf); [by left |].
    set (st_a := goto j (JEvictClose p keys rest)
                   (set_clients (delete key (clients st)) st)).
    set (st_b := goto j (JEvict keys rest) (close_sock s st_a)).
    destruct (IH st_b) as (st' & ss & Hrun & Hss & Hthr & Hcl & Hh & Hso & Htr & Hcfg).
    { done. }
    { simpl. apply list_lookup_insert_eq. rewrite length_insert. by eapply lookup_lt_Some. }
    { done. }
    { intros key' Hin. destruct (Hall key') as (p' & s' & Hp' & Hs' & Hf'); [by right |].
      exists p', s'. split_and!; [| done | done].
      simpl. rewrite lookup_delete_ne; [done |]. intros ->. done. }
    exists st', (s :: ss). split.
    { replace (2 * length (key :: rest) + 1) with (2 + (2 * length rest + 1))
        by (simpl; lia).
      rewrite solo_add, run_app. simpl.
      rewrite (step_exec j o _ st Hcr Hj). simpl. rewrite Hp. simpl.
      erewrite step_exec; [| done | by eapply goto_lookup]. simpl.
      unfold close_rConn.
      change (rConn_of p (goto j (JEvictClose p keys rest)
                (set_clients (delete key (clients st)) st))) with (rConn_of p st).
      rewrite Hs. exact Hrun. }
    simpl in *. rewrite !list_insert_insert_eq in Hthr.
    split_and!; try done.
    + by constructor.
    + by rewrite Htr, <- app_assoc.
Qed.

(** ** What the scan collects *)

Lemma NoDup_fst_filter {A B} (f : A * B → bool) (l : list (A * B)) :
  NoDup l.*1 → NoDup (List.filter f l).*1.
Proof.
  induction l as [|x l IH]; simpl; [done |].
  intros [Hx Hnd]%NoDup_cons. destruct (f x); simpl; [| by apply IH].
  apply NoDup_cons. split; [| by apply IH].
  intros Hin. apply Hx.
  apply list_elem_of_fmap in Hin as (y & -> & Hy).
  apply list_elem_of_fmap. exists y. split; [done |].
  apply list_elem_of_In. apply list_elem_of_In in Hy.
  by apply filter_In in Hy as [? _].
Qed.

Lemma NoDup_scan clock st : NoDup (scan clock st).
Proof. apply NoDup_fst_filter, NoDup_fst_map_to_list. Qed.

Lemma elem_of_scan clock st key :
  key ∈ scan clock st ↔
  ∃ p, clients st !! key = Some p ∧ idle clock st (key, p) = true.
Proof.
  unfold scan. rewrite list_elem_of_fmap. split.
  - intros ([k p] & -> & Hin). apply list_elem_of_In, filter_In in Hin as [Hin Hf].
    apply list_elem_of_In, elem_of_map_to_list in Hin. eauto.
  - intros (p & Hp & Hf). exists (key, p). split; [done |].
    apply list_elem_of_In, filter_In. split; [| done].
    by apply list_elem_of_In, elem_of_map_to_list.
Qed.

(** The wrap-around of [-f.timeout] is out of play for every timeout but
    the least int64. *)
Lemma expired_spec (t la now : Z) :
  (- 2 ^ 63 < t < 2 ^ 63)%Z →
  expired t la now = true ↔ (la < now - t)%Z.
Proof.
  intros Ht. unfold expired, Before, Add, negDuration, wrap64.
  rewrite Z.ltb_lt.
  replace ((- t + 2 ^ 63) mod 2 ^ 64)%Z with (- t + 2 ^ 63)%Z
    by (symmetry; apply Z.mod_small; lia).
  lia.
Qed.

Lemma lookup_foldl_delete (m : gmap string nat) keys key :
  foldl (λ m key, delete key m) m keys !! key
  = if decide (key ∈ keys) then None else m !! key.
Proof.
  revert m. induction keys as [|k keys IH]; intros m.
  - done.
  - cbn [foldl]. rewrite IH.
    destruct (decide (key ∈ keys)) as [Hin | Hnin].
    + rewrite decide_True; [done | by right].
    + destruct (decide (key = k)) as [-> | Hne].
      * rewrite lookup_delete_eq. rewrite decide_True; [done | by left].
      * rewrite lookup_delete_ne by done. rewrite decide_False; [done |].
        intros [? | ?]%elem_of_cons; done.
Qed.

Lemma length_foldl_close (l : list sockState) ss :
  length (foldl (λ l s, <[s := SockClosed]> l) l ss) = length l.
Proof.
  revert l. induction ss as [|s ss IH]; intros l; simpl; [done |].
  by rewrite IH, length_insert.
Qed.

Lemma foldl_close_keeps (l : list sockState) ss s :
  l !! s = Some SockClosed →
  foldl (λ l s, <[s := SockClosed]> l) l ss !! s = Some SockClosed.
Proof.
  revert l. induction ss as [|s0 ss IH]; intros l Hl; simpl; [done |].
  apply IH. destruct (decide (s0 = s)) as [-> |].
  - apply list_lookup_insert_eq. by eapply lookup_lt_Some.
  - by rewrite list_lookup_insert_ne.
Qed.

Lemma foldl_close_closes (l : list sockState) ss s :
  s ∈ ss → s < length l →
  foldl (λ l s, <[s := SockClosed]> l) l ss !! s = Some SockClosed.
Proof.
  revert l. induction ss as [|s0 ss IH]; intros l Hin Hlt; simpl.
  - by apply elem_of_nil in Hin.
  - apply elem_of_cons in Hin as [-> | Hin].
    + apply foldl_close_keeps. by apply list_lookup_insert_eq.
    + apply IH; [done |]. by rewrite length_insert.
Qed.

Lemma all_dialled_collected clock st :
  all_dialled st → collected_dialled clock st.
Proof. intros Hall key p Hp _. by apply (Hall key p). Qed.

(** One cycle of the reaper, run on its own. *)
Lemma janitor_cycle_solo o j st :
  crashed st = false → threads st !! j = Some JSleep →
  collected_dialled (o_clock o) st →
  ∃ st' ss,
    run (solo o j (3 * length (scan (o_clock o) st) + 4)) st = Some st'
    ∧ Forall2 (λ key s, sock_of st key = Some s) (scan (o_clock o) st) ss
    ∧ threads st' = <[j := JCheck]> (threads st)
    ∧ clients st' = foldl (λ m key, delete key m) (clients st) (scan (o_clock o) st)
    ∧ heap st' = heap st
    ∧ socks st' = foldl (λ l s, <[s := SockClosed]> l) (socks st) ss
    ∧ trace st' = trace st ++ [ESleep (timeout st)] ++ (ECloseSock <$> ss)
                   ++ (EDisconnect <$> scan (o_clock o) st)
    ∧ same_config st st'.
Proof.
  intros Hcr Hj Hall.
  set (keys := scan (o_clock o) st).
  set (st_a := goto j JScan (emit (ESleep (timeout st)) st)).
  set (st_b := goto j (JEvict keys keys) st_a).
  destruct (evict_loop o j keys (sock_of st) keys st_b)
    as (st_c & ss & Hrun_c & Hss & Hthr_c & Hcl_c & Hh_c & Hso_c & Htr_c & Hcfg_c).
  { done. }
  { simpl. apply list_lookup_insert_eq. rewrite length_insert. by eapply lookup_lt_Some. }
  { apply NoDup_scan. }
  { intros key Hin. apply elem_of_scan in Hin as (p & Hp & Hidle).
    destruct (Hall _ _ Hp Hidle) as (s & Hs & _).
    exists p, s. split_and!; [done | done |]. unfold sock_of. rewrite Hp. done. }
  destruct (hook_loop o j keys st_c)
    as (st_d & Hrun_d & Hthr_d & Hcl_d & Hh_d & Hso_d & Htr_d & Hcfg_d).
  { destruct Hcfg_c as (_ & _ & _ & _ & ->). done. }
  { rewrite Hthr_c. apply list_lookup_insert_eq. simpl. rewrite !length_insert. by eapply lookup_lt_Some. }
  exists st_d, ss. split.
  { replace (3 * length keys + 4)
      with (2 + ((2 * length keys + 1) + (length keys + 1))) by lia.
    rewrite solo_add, run_app. simpl.
    rewrite (step_exec j o _ st Hcr Hj). simpl.
    erewrite step_exec; [| done | by eapply goto_lookup]. simpl.
    rewrite solo_add, run_app.
    change (scan (o_clock o) (goto j JScan (emit (ESleep (timeout st)) st)))
      with keys.
    fold st_a. fold st_b.
    change (length keys + (length keys + 0)) with (2 * length keys).
    rewrite Hrun_c. simpl. exact Hrun_d. }
  simpl in *. rewrite Hthr_d, Hthr_c, Hcl_d, Hcl_c, Hh_d, Hh_c, Hso_d, Hso_c, Htr_d, Htr_c.
  simpl. rewrite !list_insert_insert_eq, <- !app_assoc. simpl.
  split_and!; try done.
  eapply same_config_trans; [| exact Hcfg_d].
  eapply same_config_trans; [| exact Hcfg_c]. by repeat split.
Qed.






(** A cycle of the reaper, run on its own from its sleep, when every
    session it collects has its socket and the timeout is not the least
    int64.  It sleeps for the configured timeout; it collects, each key
    once, exactly the keys of the table whose session has [lastActive]
    before the clock reading minus the timeout; it deletes each collected
    key and closes its socket; and the hooks, one per collected key, are all
    called after the last socket is closed. *)
Lemma janitor_cycle_phases (st : State) (j : nat) (o : oracle) :
  crashed st = false → threads st !! j = Some JSleep →
  collected_dialled (o_clock o) st →
  (- 2 ^ 63 < timeout st < 2 ^ 63)%Z →
  ∃ keys ss st',
    run (solo o j (3 * length keys + 4)) st = Some st'
    ∧ threads st' !! j = Some JCheck
    ∧ NoDup keys
    ∧ (∀ key, key ∈ keys ↔
         ∃ p client, clients st !! key = Some p ∧ heap st !! p = Some client
                     ∧ (lastActive client < o_clock o key - timeout st)%Z)
    ∧ Forall2 (λ key s, sock_of st key = Some s) keys ss
    ∧ (∀ key, clients st' !! key
              = if decide (key ∈ keys) then None else clients st !! key)
    ∧ (∀ s, s ∈ ss → socks st' !! s = Some SockClosed)
    ∧ trace st' = trace st ++ [ESleep (timeout st)] ++ (ECloseSock <$> ss)
                   ++ (EDisconnect <$> keys).
Proof.
  intros Hcr Hj Hall Ht.
  destruct (janitor_cycle_solo o j st Hcr Hj Hall)
    as (st' & ss & Hrun & Hss & Hthr & Hcl & Hh & Hso & Htr & Hcfg).
  exists (scan (o_clock o) st), ss, st'. split_and!; try done.
  - rewrite Hthr. apply list_lookup_insert_eq. by eapply lookup_lt_Some.
  - apply NoDup_scan.
  - intros key. rewrite elem_of_scan. unfold idle. simpl. split.
    + intros (p & Hp & Hidle).
      destruct (heap st !! p) as [client|] eqn:Hclient; [| done].
      exists p, client. split_and!; try done. by apply expired_spec.
    + intros (p & client & Hp & Hclient & Hlt).
      exists p. split; [done |]. rewrite Hclient. by apply expired_spec.
  - intros key. rewrite Hcl. apply lookup_foldl_delete.
  - intros s Hin. rewrite Hso. apply foldl_close_closes; [done |].
    apply list_elem_of_lookup in Hin as [i Hi].
    destruct (Forall2_lookup_r _ _ _ _ _ Hss Hi) as (key & Hki & Hkey).
    apply list_elem_of_lookup_2, elem_of_scan in Hki as (p & Hp & Hidle).
    unfold sock_of in Hkey. rewrite Hp in Hkey. simpl in Hkey.
    destruct (Hall _ _ Hp Hidle) as (s' & Hs' & Hlt). congruence.
Qed.


Lemma janitor_cycle_phases_example :
  ∃ (keys : list string) st',
    run (solo (Sample.yes (50 * Sample.second)) 0 (3 * length keys + 4))
      Sample.established = Some st'
    ∧ threads st' !! 0 = Some JCheck
    ∧ NoDup keys.
Proof.
  destruct (janitor_cycle_phases Sample.established 0
              (Sample.yes (50 * Sample.second)))
    as (keys & ss & st' & Hrun & Hthr & Hnd & _);
    [reflexivity | reflexivity
    | exact (all_dialled_collected _ _ established_all_dialled)
    | split; reflexivity |].
  exists keys, st'. split; [exact Hrun |]. split; [exact Hthr | exact Hnd].
Defined.



(** ** Goroutines that meet a session still being created *)

(** C4, at the failing inputs.  First: the dial for the first packet of a
    client fails, a second packet of the client arrives after that, and its
    handler loads the half-created session before the first handler
    deletes it.  The first handler then deletes the entry and returns; the
    second handler stands at forward.go:171 before a gate nobody opens: in
    every continuation it is still there with no step enabled, so the
    subsequent packet never performs a dial.  Second: after two first
    packets have both stored a session, the handler whose dial failed
    deletes the entry that holds the other handler's session, which is
    established and whose relay loop runs on. *)
Theorem C4_late_packet_never_dials :
  (∃ st, run Sample.late_packet Sample.fwd = Some st
         ∧ trace st = [EDial Sample.cli false false]
         ∧ dials Sample.cli (trace st) = 1
         ∧ threads st = [JCheck; Done; HWait 0 Sample.P2 Sample.cli]
         ∧ clients st !! Sample.cli = None
         ∧ ∀ sched st', run sched st = Some st' →
             threads st' !! 2 = Some (HWait 0 Sample.P2 Sample.cli)
             ∧ ∀ o, step (AStep 2 o) st' = None)
  ∧ (∃ st, run Sample.race_failed Sample.fwd = Some st
           ∧ threads st = [JCheck; Done; HRelayRead 1 Sample.cli]
           ∧ clients st !! Sample.cli = None
           ∧ heap st !! 1 = Some {| available := true; rConn := Some 0;
                                    lastActive := 4 |}
           ∧ socks st = [SockOpen]).
Proof.
  split.
  - eexists. split; [vm_compute; reflexivity |].
    split_and!; try reflexivity.
    intros sched st' Hrun.
    refine (waiter_blocked_forever sched _ st' 2 0 Sample.P2 Sample.cli _ _ Hrun);
      [| reflexivity].
    split.
    + eexists. split; reflexivity.
    + intros [|[|[|tid]]] c [=] Hc; simplify_eq.
  - eexists. split; [vm_compute; reflexivity |].
    split_and!; reflexivity.
Qed.

(** C7, at the failing input: the handler of a first packet has stored its
    session at second 1 and has not yet dialled when the reaper, with a
    timeout of 40 seconds, runs a cycle at second 50.  The reaper sleeps,
    collects the key, deletes it, and calls [Close] through the nil [rConn]
    of the session (forward.go:98): the process panics.  The key was
    evicted and no disconnect hook is called for it; nothing runs any
    more. *)
Theorem C7_reaper_panics_on_pending_session :
  ∃ st, run Sample.pending_expired Sample.fwd = Some st
        ∧ crashed st = true
        ∧ clients st !! Sample.cli = None
        ∧ rConn_of 0 st = None
        ∧ trace st = [ESleep (40 * Sample.second)]
        ∧ disconnects Sample.cli (trace st) = 0
        ∧ ∀ a, step a st = None.
Proof.
  eexists. split; [vm_compute; reflexivity |].
  split_and!; reflexivity.
Qed.

(** C9, at the failing inputs.  First: [Close] is called when the handler
    of a first packet has stored its session and has not yet dialled.
    [Close] sets the flag and calls [Close] through the nil [rConn] of the
    session (forward.go:192): the process panics with the listening socket
    still open.  Second: after two first packets have both stored a
    session, the table holds the second one only; [Close] closes its socket
    and the listening socket and leaves the socket of the first session
    open, with its relay loop reading from it. *)
Theorem C9_Close_panics_on_pending_session :
  (∃ st, run Sample.stop_while_dialling Sample.fwd = Some st
         ∧ closed st = true
         ∧ crashed st = true
         ∧ listenerConn st = SockOpen
         ∧ clients st !! Sample.cli = Some 0
         ∧ rConn_of 0 st = None
         ∧ trace st = [])
  ∧ (∃ st, run (Sample.race ++ [AStop]) Sample.fwd = Some st
           ∧ closed st = true
           ∧ listenerConn st = SockClosed
           ∧ rConn_of 0 st = Some 0
           ∧ socks st = [SockOpen; SockClosed]
           ∧ threads st !! 1 = Some (HRelayRead 0 Sample.cli)).
Proof.
  split.
  - eexists. split; [vm_compute; reflexivity |].
    split_and!; reflexivity.
  - eexists. split; [vm_compute; reflexivity |].
    split_and!; reflexivity.
Qed.
